(** * node-red-contrib-node-hue: the light server of lib/hue-server.js

    A shallow embedding of [LightServer] (constructor, initial fetch,
    [huePoll]/[processLights], [stop], [addLight], [statusUpdateLight],
    [nodeRegister], [nodeUnregister], [lightChange], [getLights]) and the
    properties of the synchronisation core that the specification states
    about it.

    Conventions of the embedding.
    - A JavaScript object used as a string-keyed table ([lights],
      [nodeList], the per-light table of nodes) is an association list in
      the order [Object.keys] enumerates it: the keys that are array
      indices first, in ascending numeric order, then the other keys in
      the order of their insertion.
    - A number is the exact rational value of an IEEE binary64 double,
      or NaN or an infinity; addition and division round their exact
      result to the nearest double, ties to even ([Js.round64]).  The
      sign of zero is not kept.
    - Every operation is a computation in [M]: it threads the server
      object, appends to a trace of the calls made on collaborators
      (nodes, timers, the Hue API) and completes normally or abruptly
      (a thrown exception), as the ECMAScript completion records do.
    - [process.uptime()] is an argument [now] of the operations that
      read the clock.
    - Asynchronous callbacks (the answers of [hueApi.lights] and
      [hueApi.setLightState]) are separate operations, run when the
      answer arrives. *)

From Stdlib Require Import List String Bool Ascii NArith ZArith QArith Qround Qabs Lia Lqa.
Import ListNotations.
Open Scope string_scope.

Set Implicit Arguments.

(** ** JavaScript values *)

Module Js.

(** A JavaScript number. *)
Inductive Num : Type :=
| Fin (q : Q)
| NaN
| PosInf
| NegInf.

(** The values that reach the server through configuration objects,
    node objects and change requests. *)
Inductive Val : Type :=
| Undefined
| Null
| Boolean (b : bool)
| Number (n : Num)
| Str (s : string)
| Object.

(** [a === b] on the values above (objects compare by reference and
    are never equal to a literal). *)
Definition strict_eq (a b : Val) : bool :=
  match a, b with
  | Undefined, Undefined => true
  | Null, Null => true
  | Boolean x, Boolean y => Bool.eqb x y
  | Number (Fin x), Number (Fin y) => Qeq_bool x y
  | Number PosInf, Number PosInf => true
  | Number NegInf, Number NegInf => true
  | Str x, Str y => String.eqb x y
  | _, _ => false
  end.

Definition strict_neq (a b : Val) : bool := negb (strict_eq a b).

(** ToBoolean. *)
Definition truthy (v : Val) : bool :=
  match v with
  | Undefined | Null => false
  | Boolean b => b
  | Number (Fin q) => negb (Qeq_bool q 0)
  | Number NaN => false
  | Number _ => true
  | Str s => negb (String.eqb s "")
  | Object => true
  end.

(** [undefined < v]: ToNumber(undefined) is NaN and every relational
    comparison with NaN is false. *)
Definition undefined_lt (v : Val) : bool := false.

(** [2^e] as a rational. *)
Definition pow2 (e : Z) : Q :=
  if (0 <=? e)%Z then inject_Z (2 ^ e) else 1 # Z.to_pos (2 ^ (- e)).

(** [floor (log2 a)] for a positive rational. *)
Definition ilog2 (a : Q) : Z :=
  let k0 := (Z.log2 (Qnum a) - Z.log2 (Zpos (Qden a)))%Z in
  if Qle_bool (pow2 k0) a then k0 else (k0 - 1)%Z.

(** The integer nearest to [y], the even one on a tie. *)
Definition round_half_even (y : Q) : Z :=
  let f := Qfloor y in
  match Qcompare (y - inject_Z f) (1 # 2) with
  | Lt => f
  | Gt => (f + 1)%Z
  | Eq => if Z.even f then f else (f + 1)%Z
  end.

(** The binary64 double nearest to the rational [x], ties to even:
    53 bits of precision, least exponent -1074 (subnormals), overflow
    to an infinity from [2^1024] on. *)
Definition round64 (x : Q) : Num :=
  if Qeq_bool x 0 then Fin 0
  else
    let a := Qabs x in
    let e := Z.max (-1074) (ilog2 a - 52) in
    let r := (inject_Z (round_half_even (a / pow2 e)) * pow2 e)%Q in
    if Qle_bool (pow2 1024) r
    then (if Qle_bool 0 x then PosInf else NegInf)
    else Fin (Qred (if Qle_bool 0 x then r else (- r)%Q)).

(** [a + b] on numbers. *)
Definition add (a b : Num) : Num :=
  match a, b with
  | NaN, _ | _, NaN => NaN
  | PosInf, NegInf | NegInf, PosInf => NaN
  | PosInf, _ | _, PosInf => PosInf
  | NegInf, _ | _, NegInf => NegInf
  | Fin x, Fin y => round64 (x + y)
  end.

(** [a / b] for a finite, positive divisor [b]. *)
Definition div_pos (a : Num) (b : Q) : Num :=
  match a with
  | Fin x => round64 (x / b)
  | other => other
  end.

(** [Math.floor]. *)
Definition floor (a : Num) : Num :=
  match a with
  | Fin x => Fin (inject_Z (Qfloor x))
  | other => other
  end.

(** [a > 0]. *)
Definition gt0 (a : Num) : bool :=
  match a with
  | Fin x => negb (Qle_bool x 0)
  | PosInf => true
  | _ => false
  end.


(** [a <= b] as a proposition. *)
Definition le (a b : Num) : Prop :=
  match a, b with
  | Fin x, Fin y => (x <= y)%Q
  | Fin _, PosInf => True
  | NegInf, Fin _ => True
  | NegInf, NegInf => True
  | NegInf, PosInf => True
  | PosInf, PosInf => True
  | _, _ => False
  end.

(** The names of the members of [Object.prototype], which a property
    read on a plain object finds when the object has no own property
    of that name.  Each is a function, or ([__proto__]) the prototype
    itself, and has no enumerable own property. *)
Definition Object_prototype : list string :=
  [ "constructor"; "__defineGetter__"; "__defineSetter__"; "hasOwnProperty";
    "__lookupGetter__"; "__lookupSetter__"; "isPrototypeOf";
    "propertyIsEnumerable"; "toString"; "valueOf"; "__proto__";
    "toLocaleString" ]%string.

Definition prototype_member (k : string) : bool :=
  existsb (String.eqb k) Object_prototype.

(** What a [throw] carries. *)
Inductive Exn : Type :=
| TypeError (msg : string)
| HostError (msg : string).

(** Completion of an evaluation: normal with a value, or abrupt. *)
Inductive Completion (A : Type) : Type :=
| Normal (a : A)
| Throw (e : Exn).
Arguments Throw {A} e.


End Js.

(** ** String-keyed objects, in the order [Object.keys] enumerates *)

Module Obj.

Definition t (V : Type) : Type := list (string * V).

Definition empty {V} : t V := [].

(** [o[k]] ([None] is [undefined]). *)
Fixpoint get {V} (k : string) (o : t V) : option V :=
  match o with
  | [] => None
  | (k', v) :: r => if String.eqb k k' then Some v else get k r
  end.

(** [o.hasOwnProperty(k)]. *)
Definition hasOwn {V} (k : string) (o : t V) : bool :=
  match get k o with Some _ => true | None => false end.

(** The value of a string of decimal digits. *)
Fixpoint digits (s : string) (acc : N) : option N :=
  match s with
  | EmptyString => Some acc
  | String c r =>
      let d := N_of_ascii c in
      if (48 <=? d)%N && (d <=? 57)%N
      then digits r (acc * 10 + (d - 48))%N
      else None
  end.

(** The array index a key denotes: the canonical decimal form (no
    leading zero) of an integer from 0 to 2^32 - 2. *)
Definition array_index (k : string) : option N :=
  match k with
  | EmptyString => None
  | String c r =>
      if Ascii.eqb c "0"%char && negb (String.eqb r "") then None
      else match digits k 0 with
           | Some n => if (n <=? 4294967294)%N then Some n else None
           | None => None
           end
  end.

(** Whether the new key [k] is enumerated before the key [k']: an
    array index comes before a larger index and before every key that
    is not an index. *)
Definition goes_before (k k' : string) : bool :=
  match array_index k, array_index k' with
  | Some n, Some n' => (n <? n')%N
  | Some _, None => true
  | None, _ => false
  end.

(** The place of a new key. *)
Fixpoint insert {V} (k : string) (v : V) (o : t V) : t V :=
  match o with
  | [] => [(k, v)]
  | (k', v') :: r =>
      if goes_before k k' then (k, v) :: (k', v') :: r
      else (k', v') :: insert k v r
  end.

(** A new value for a key the object has. *)
Fixpoint update {V} (k : string) (v : V) (o : t V) : t V :=
  match o with
  | [] => []
  | (k', v') :: r =>
      if String.eqb k k' then (k', v) :: r else (k', v') :: update k v r
  end.

(** [o[k] = v]: an existing key keeps its place, a new one goes to its
    place in the enumeration order. *)
Definition set {V} (k : string) (v : V) (o : t V) : t V :=
  if hasOwn k o then update k v o else insert k v o.

(** [delete o[k]]. *)
Fixpoint del {V} (k : string) (o : t V) : t V :=
  match o with
  | [] => []
  | (k', v') :: r =>
      if String.eqb k k' then r else (k', v') :: del k r
  end.

(** [Object.keys(o)]. *)
Definition keys {V} (o : t V) : list string := map fst o.

End Obj.


(** ** The collaborators of the server *)

(** The types that belong to [LightItem] (lib/hue-light.js) and to the
    Hue bridge; the server never looks inside them. *)
Class LightTypes : Type := {
  Payload : Type;     (* what the bridge reports for a light, besides its uniqueid *)
  Canon : Type;       (* the state a LightItem keeps *)
  Colors : Type;      (* result of light.getColors() *)
  Change : Type;      (* a change request, besides its duration *)
  LightState : Type   (* result of light.getLightState(), sent to the bridge *)
}.

Section Data.

Context {T : LightTypes}.

(** One element of [lightsInfo.lights]. *)
Record RawInfo : Type := {
  raw_uniqueid : string;
  raw_payload : Payload
}.

(** [light.info]. *)
Record LightInfo : Type := {
  id : Js.Val;
  name : Js.Val
}.

(** A [LightItem] object: the members the server reads or writes, and
    the item's own state. *)
Record LightItem : Type := {
  uniqueid : string;
  info : LightInfo;
  modified : Js.Num;
  canon : Canon
}.

(** The [value] argument of [lightChange]. *)
Record Value : Type := {
  duration : Js.Val;
  change : Change
}.

(** The argument of [node.status]. *)
Record NodeStatus : Type := {
  fill : string;
  shape : string;
  text : string
}.

(** A Node-RED node as the server uses it: the [isOutput] member and
    the two host functions [send] and [status], each of which either
    returns ([None]) or throws. *)
Record Node : Type := {
  isOutput : Js.Val;
  send : Colors -> option Js.Exn;
  status : NodeStatus -> option Js.Exn
}.

(** The handle [setInterval] returns, identified by the delay it was
    armed with. *)
Record Timer : Type := {
  delay : Js.Val
}.

(** The configuration object. *)
Record Config : Type := {
  address : Js.Val;
  key : Js.Val;
  interval : Js.Val
}.

(** The [LightServer] object. *)
Record LightServer : Type := {
  config : Config;
  nodeList : Obj.t (Obj.t Node);
  nodeListCount : Z;
  lights : Obj.t LightItem;
  lightPollInterval : option Timer
}.

(** Calls the server makes on its collaborators, in order. *)
Inductive Event : Type :=
| NodeStatusCall (nodeID : string) (st : NodeStatus)
| NodeSend (nodeID : string) (c : Colors)
| ApiLights
| ApiSetLightState (lid : Js.Val) (st : LightState)
| SetInterval (d : Js.Val)
| ClearInterval (h : Timer)
| LightStop (uid : string)
| Report (channel : string) (msg : string).

(** The result of running an operation. *)
Record Run (A : Type) : Type := {
  outcome : Js.Completion A;
  final : LightServer;
  trace : list Event
}.

Definition M (A : Type) : Type := LightServer -> Run A.

Definition ret {A} (a : A) : M A :=
  fun s => {| outcome := Js.Normal a; final := s; trace := [] |}.

Definition throw {A} (e : Js.Exn) : M A :=
  fun s => {| outcome := Js.Throw e; final := s; trace := [] |}.

Definition bind {A B} (m : M A) (k : A -> M B) : M B :=
  fun s =>
    let r := m s in
    match outcome r with
    | Js.Normal a =>
        let r' := k a (final r) in
        {| outcome := outcome r'; final := final r';
           trace := trace r ++ trace r' |}
    | Js.Throw e =>
        {| outcome := Js.Throw e; final := final r; trace := trace r |}
    end.

Definition get_state : M LightServer :=
  fun s => {| outcome := Js.Normal s; final := s; trace := [] |}.

Definition modify (f : LightServer -> LightServer) : M unit :=
  fun s => {| outcome := Js.Normal tt; final := f s; trace := [] |}.

Definition tell (e : Event) : M unit :=
  fun s => {| outcome := Js.Normal tt; final := s; trace := [e] |}.

(** [try { m } catch (e) { h e }]. *)
Definition try_catch {A} (m : M A) (h : Js.Exn -> M A) : M A :=
  fun s =>
    let r := m s in
    match outcome r with
    | Js.Normal a => r
    | Js.Throw e =>
        let r' := h e (final r) in
        {| outcome := outcome r'; final := final r';
           trace := trace r ++ trace r' |}
    end.

End Data.

Notation "x <- m ;; k" := (bind m (fun x => k))
  (at level 61, m at next level, right associativity).
Notation "m ;; k" := (bind m (fun _ => k))
  (at level 61, right associativity).

(** The methods of [LightItem] (lib/hue-light.js) the server calls,
    taken as the operations of an interface: functions of the item,
    which return.
    - [li_updateInfo now info l] is [l.updateInfo(info)] at time [now]:
      the item afterwards, and whether it emitted its ['change'] event
      (the listener then runs inside the call, on the updated item).
    - [li_updateColor], [li_getLightState], [ls_transition] and
      [li_getColors] emit nothing.
    - [li_status l] is the status [l.updateNodeStatus(node)] hands to
      [node.status].
    - [l.stop()] appears in the trace as [LightStop]. *)
Class LightOps {T : LightTypes} : Type := {
  li_new : RawInfo -> LightItem;
  li_updateInfo : Q -> RawInfo -> LightItem -> LightItem * bool;
  li_updateColor : Value -> LightItem -> LightItem;
  li_getColors : LightItem -> Colors;
  li_getLightState : LightItem -> LightState;
  li_status : LightItem -> NodeStatus;
  ls_transition : Js.Num -> LightState -> LightState
}.



(** ** The server *)

Section Server.

Context {T : LightTypes} {O : LightOps}.

(** [l.forEach(f)]: a throw in [f] ends the iteration. *)
Fixpoint forEach {X} (f : X -> M unit) (l : list X) : M unit :=
  match l with
  | [] => ret tt
  | x :: r => f x ;; forEach f r
  end.

Definition set_lights (l : Obj.t LightItem) (s : LightServer) : LightServer :=
  {| config := config s; nodeList := nodeList s;
     nodeListCount := nodeListCount s; lights := l;
     lightPollInterval := lightPollInterval s |}.

Definition set_nodeList (n : Obj.t (Obj.t Node)) (s : LightServer) : LightServer :=
  {| config := config s; nodeList := n;
     nodeListCount := nodeListCount s; lights := lights s;
     lightPollInterval := lightPollInterval s |}.

Definition set_lightPollInterval (t : option Timer) (s : LightServer) : LightServer :=
  {| config := config s; nodeList := nodeList s;
     nodeListCount := nodeListCount s; lights := lights s;
     lightPollInterval := t |}.

Definition set_interval (v : Js.Val) (c : Config) : Config :=
  {| address := address c; key := key c; interval := v |}.

Definition set_modified (m : Js.Num) (l : LightItem) : LightItem :=
  {| uniqueid := uniqueid l; info := info l; modified := m; canon := canon l |}.

(** The members of a [LightServer] object: the properties the
    constructor assigns and the methods of [LightServer.prototype].
    The Node-RED node of the bridge is [LightServerWrapper], which holds
    the server in its [lightServer] property; [RED.nodes.createNode]
    equips the wrapper, not the server, and nothing in the file assigns
    other members to the server. *)
Definition LightServer_members : list string :=
  [ "config"; "nodeList"; "nodeListCount"; "lights"; "hueApi";
    "lightPollInterval"; "huePoll";
    "stop"; "addLight"; "statusUpdateLight"; "nodeRegister";
    "nodeUnregister"; "lightChange"; "getLights" ].

Definition has_member (m : string) : bool :=
  existsb (String.eqb m) LightServer_members.

(** [self.<channel>(msg)] for the reporting calls [self.warn] and
    [self.error]: calling a member that is [undefined] throws. *)
Definition call_channel (channel msg : string) : M unit :=
  if has_member channel then tell (Report channel msg)
  else throw (Js.TypeError (channel ++ " is not a function")).

(** [err.toString()], where [err] is [null] ([None]) or an [Error]
    ([Some] of its text). *)
Definition err_toString (err : option string) : M string :=
  match err with
  | Some msg => ret msg
  | None =>
      throw (Js.TypeError "Cannot read properties of null (reading 'toString')")
  end.

(** A call of a host function of a node. *)
Definition host_call (r : option Js.Exn) : M unit :=
  match r with
  | None => ret tt
  | Some e => throw e
  end.

(** [node.send(c)]. *)
Definition node_send (nodeID : string) (node : Node) (c : Colors) : M unit :=
  tell (NodeSend nodeID c) ;; host_call (send node c).

(** [node.status(st)]. *)
Definition node_status (nodeID : string) (node : Node) (st : NodeStatus) : M unit :=
  tell (NodeStatusCall nodeID st) ;; host_call (status node st).

(** [light.updateNodeStatus(node)]. *)
Definition updateNodeStatus (light : LightItem) (nodeID : string) (node : Node) : M unit :=
  node_status nodeID node (li_status light).

(** [self.nodeList[uid][nodeID]]. *)
Definition lookup_node (uid nodeID : string) : M Node :=
  s <- get_state ;;
  match Obj.get uid (nodeList s) with
  | None =>
      throw (Js.TypeError "Cannot read properties of undefined")
  | Some tbl =>
      match Obj.get nodeID tbl with
      | None => throw (Js.TypeError "Cannot read properties of undefined")
      | Some node => ret node
      end
  end.

(** The listener [addLight] registers for the ['change'] event of
    [light] (lines 116-128).  The read [self.nodeList[light.uniqueid]]
    of line 121 is not guarded: without an own entry it yields the
    member of [Object.prototype] of that name, whose [Object.keys] is
    empty, or [undefined], on which [Object.keys] throws. *)
Definition on_change (light : LightItem) : M unit :=
  let newStateColors := li_getColors light in
  s <- get_state ;;
  match Obj.get (uniqueid light) (nodeList s) with
  | None =>
      if Js.prototype_member (uniqueid light)
      then ret tt
      else throw (Js.TypeError "Cannot convert undefined or null to object")
  | Some tbl =>
      forEach (fun nodeID =>
                 node <- lookup_node (uniqueid light) nodeID ;;
                 updateNodeStatus light nodeID node ;;
                 if Js.strict_eq (isOutput node) (Js.Boolean true)
                 then node_send nodeID node newStateColors
                 else ret tt)
              (Obj.keys tbl)
  end.

(** [LightServer.prototype.statusUpdateLight]. *)
Definition statusUpdateLight (light : LightItem) : M unit :=
  s <- get_state ;;
  if Obj.hasOwn (uniqueid light) (nodeList s) then
    match Obj.get (uniqueid light) (nodeList s) with
    | None => ret tt
    | Some tmp =>
        forEach (fun nodeID =>
                   node <- lookup_node (uniqueid light) nodeID ;;
                   updateNodeStatus light nodeID node ;;
                   if Js.truthy (isOutput node)
                   then node_send nodeID node (li_getColors light)
                   else ret tt)
                (Obj.keys tmp)
    end
  else ret tt.

(** [LightServer.prototype.addLight]. *)
Definition addLight (info : RawInfo) : M LightItem :=
  let light := li_new info in
  modify (fun s => set_lights (Obj.set (uniqueid light) light (lights s)) s) ;;
  statusUpdateLight light ;;
  ret light.

(** The constructor, up to the request of the initial fetch. *)
Definition LightServer_new (cfg : Config) : Run unit :=
  let cfg0 := cfg in
  let cfg1 :=
    if Js.strict_neq (interval cfg0) (Js.Str "number")
       || Js.undefined_lt (Js.Number (Js.Fin 500))
    then set_interval (Js.Number (Js.Fin 500)) cfg0
    else cfg0 in
  {| outcome := Js.Normal tt;
     final := {| config := cfg1; nodeList := Obj.empty; nodeListCount := 0;
                 lights := Obj.empty; lightPollInterval := None |};
     trace := [ApiLights] |}.

(** The callback of the initial fetch (lines 68-80). *)
Definition initialFetch (err : option string) (data : list RawInfo) : M unit :=
  match err with
  | Some _ =>
      msg <- err_toString err ;;
      call_channel "error" msg
  | None =>
      forEach (fun item => addLight item ;; ret tt) data ;;
      s <- get_state ;;
      tell (SetInterval (interval (config s))) ;;
      modify (set_lightPollInterval (Some {| delay := interval (config s) |}))
  end.

(** The body of the [try] block of [processLights] for one light. *)
Definition poll_one (now : Q) (info : RawInfo) : M unit :=
  s <- get_state ;;
  if negb (Obj.hasOwn (raw_uniqueid info) (lights s)) then
    addLight info ;; ret tt
  else
    match Obj.get (raw_uniqueid info) (lights s) with
    | None => ret tt
    | Some light =>
        let '(light', changed) := li_updateInfo now info light in
        modify (fun s =>
                  set_lights (Obj.set (raw_uniqueid info) light' (lights s)) s) ;;
        if changed then on_change light' else ret tt
    end.

(** [processLights], the callback of the periodic fetch. *)
Definition processLights (now : Q) (err : option string)
    (lightsInfo : list RawInfo) : M unit :=
  match err with
  | Some _ =>
      msg <- err_toString err ;;
      call_channel "warn" msg
  | None =>
      forEach (fun info =>
                 try_catch (poll_one now info)
                           (fun e =>
                              msg <- err_toString err ;;
                              call_channel "warn" msg))
              lightsInfo
  end.

(** [huePoll]: the request the timer issues. *)
Definition huePoll : M unit := tell ApiLights.

(** [LightServer.prototype.stop]. *)
Definition stop : M unit :=
  s <- get_state ;;
  match lightPollInterval s with
  | Some h => tell (ClearInterval h)
  | None => ret tt
  end ;;
  modify (set_lightPollInterval None) ;;
  forEach (fun uid =>
             s1 <- get_state ;;
             match Obj.get uid (lights s1) with
             | Some light => tell (LightStop (uniqueid light))
             | None => throw (Js.TypeError "Cannot read properties of undefined")
             end)
          (Obj.keys (lights s)) ;;
  modify (set_lights Obj.empty).

(** The status of a node whose light is not known (line 176). *)
Definition unknown_status : NodeStatus :=
  {| fill := "red"; shape := "ring"; text := "unknown" |}.

(** [LightServer.prototype.nodeRegister]. *)
Definition nodeRegister (lightID nodeID : string) (node : Node) : M unit :=
  modify (fun s =>
            if negb (Obj.hasOwn lightID (nodeList s))
            then set_nodeList (Obj.set lightID Obj.empty (nodeList s)) s
            else s) ;;
  modify (fun s =>
            match Obj.get lightID (nodeList s) with
            | Some tbl =>
                set_nodeList
                  (Obj.set lightID (Obj.set nodeID node tbl) (nodeList s)) s
            | None => s
            end) ;;
  s <- get_state ;;
  if Obj.hasOwn lightID (lights s) then
    match Obj.get lightID (lights s) with
    | None => ret tt
    | Some light =>
        updateNodeStatus light nodeID node ;;
        if Js.truthy (isOutput node)
        then node_send nodeID node (li_getColors light)
        else ret tt
    end
  else
    node_status nodeID node unknown_status.

(** [LightServer.prototype.nodeUnregister]. *)
Definition nodeUnregister (lightID nodeID : string) : M unit :=
  s <- get_state ;;
  if negb (Obj.hasOwn lightID (nodeList s)) then ret tt
  else
    match Obj.get lightID (nodeList s) with
    | None => ret tt
    | Some tbl =>
        if negb (Obj.hasOwn nodeID tbl) then ret tt
        else modify
               (set_nodeList (Obj.set lightID (Obj.del nodeID tbl) (nodeList s)))
    end.

(** The deadline after a change with transition time [d]
    (line 224: [light.modified += Math.floor(1 + (value.duration/1000))]). *)
Definition extend_modified (d : Js.Num) (m : Js.Num) : Js.Num :=
  Js.add m (Js.floor (Js.add (Js.Fin 1) (Js.div_pos d 1000))).

(** [LightServer.prototype.lightChange], up to the request sent to the
    bridge.  The test [typeof value.duration === 'number' &&
    value.duration > 0] is the match on [Js.Number] with [Js.gt0]. *)
Definition lightChange (now : Q) (lightID : string) (value : Value) : M unit :=
  s <- get_state ;;
  if negb (Obj.hasOwn lightID (lights s)) then ret tt
  else
    match Obj.get lightID (lights s) with
    | None => ret tt
    | Some light =>
        let light1 := set_modified (Js.add (Js.Fin now) (Js.Fin 1)) light in
        let light2 := li_updateColor value light1 in
        let newState := li_getLightState light2 in
        let '(newState', light3) :=
          match duration value with
          | Js.Number d =>
              if Js.gt0 d
              then (ls_transition d newState,
                    set_modified (extend_modified d (modified light2)) light2)
              else (newState, light2)
          | _ => (newState, light2)
          end in
        modify (fun s => set_lights (Obj.set lightID light3 (lights s)) s) ;;
        tell (ApiSetLightState (id (info light3)) newState')
    end.

(** The callback of [hueApi.setLightState] (lines 228-233). *)
Definition setLightState_done (err : option string) : M unit :=
  match err with
  | Some _ =>
      msg <- err_toString err ;;
      call_channel "warn" msg
  | None => ret tt
  end.

(** One element of the array [getLights] returns. *)
Record Listing : Type := {
  l_id : string;
  l_info : Js.Val;
  l_name : Js.Val
}.

(** [LightServer.prototype.getLights]. *)
Definition getLights : M (list Listing) :=
  s <- get_state ;;
  fold_left
    (fun (coll : M (list Listing)) lightid =>
       c <- coll ;;
       match Obj.get lightid (lights s) with
       | Some light =>
           ret (c ++ [ {| l_id := uniqueid light;
                          l_info := id (info light);
                          l_name := name (info light) |} ])%list
       | None => throw (Js.TypeError "Cannot read properties of undefined")
       end)
    (Obj.keys (lights s))
    (ret []).

End Server.

(** ** The serialized timeline *)

Section Timeline.

Context {T : LightTypes} {O : LightOps}.

(** What can happen to a server after its construction: the answer of
    the initial fetch, a timer tick, the answer of a periodic fetch, the
    answer of a write, and the calls of the public methods. *)
Inductive Op : Type :=
| OpInitialAnswer (err : option string) (data : list RawInfo)
| OpTick
| OpPollAnswer (now : Q) (err : option string) (data : list RawInfo)
| OpWriteAnswer (err : option string)
| OpStop
| OpRegister (lightID nodeID : string) (node : Node)
| OpUnregister (lightID nodeID : string)
| OpLightChange (now : Q) (lightID : string) (value : Value).

Definition step (op : Op) : M unit :=
  match op with
  | OpInitialAnswer err data => initialFetch err data
  | OpTick => huePoll
  | OpPollAnswer now err data => processLights now err data
  | OpWriteAnswer err => setLightState_done err
  | OpStop => stop
  | OpRegister lightID nodeID node => nodeRegister lightID nodeID node
  | OpUnregister lightID nodeID => nodeUnregister lightID nodeID
  | OpLightChange now lightID value => lightChange now lightID value
  end.

(** The state after a history of operations, each run to its
    completion on the state the previous one left. *)
Definition run_ops (ops : list Op) (s : LightServer) : LightServer :=
  fold_left (fun st op => final (step op st)) ops s.


End Timeline.

(** ** Fan-out, as a function of the table of nodes *)

Section Fanout.

Context {T : LightTypes} {O : LightOps}.









End Fanout.

(** ** A small instance of the collaborators

    A light whose whole state is a brightness.  [li_updateInfo] takes a
    reported brightness over when it differs from the known one and the
    clock has passed [modified], and then emits ['change']. *)

Module Demo.

#[export] Instance types : LightTypes := {|
  Payload := Z;
  Canon := Z;
  Colors := Z;
  Change := Z;
  LightState := Z * option Js.Num
|}.

Definition new (i : RawInfo) : LightItem :=
  {| uniqueid := raw_uniqueid i;
     info := {| id := Js.Str (raw_uniqueid i); name := Js.Str "lamp" |};
     modified := Js.Fin 0;
     canon := raw_payload i |}.

Definition suppressed (now : Q) (l : LightItem) : bool :=
  match modified l with
  | Js.Fin m => negb (Qle_bool m now)
  | Js.PosInf => true
  | _ => false
  end.

Definition updateInfo (now : Q) (i : RawInfo) (l : LightItem) : LightItem * bool :=
  if suppressed now l || Z.eqb (canon l) (raw_payload i) then (l, false)
  else ({| uniqueid := uniqueid l; info := info l; modified := modified l;
           canon := raw_payload i |}, true).

Definition updateColor (v : Value) (l : LightItem) : LightItem :=
  {| uniqueid := uniqueid l; info := info l; modified := modified l;
     canon := change v |}.

#[export] Instance ops : LightOps := {|
  li_new := new;
  li_updateInfo := updateInfo;
  li_updateColor := updateColor;
  li_getColors := fun l => canon l;
  li_getLightState := fun l => (canon l, None);
  li_status := fun l => {| fill := "yellow"; shape := "dot"; text := "on" |};
  ls_transition := fun d st => (fst st, Some d)
|}.

(** Nodes: an input node (receives pushes), an output-only node, and an
    input node whose [send] throws. *)
Definition reader : Node :=
  {| isOutput := Js.Boolean true;
     send := fun _ => None; status := fun _ => None |}.

Definition sink : Node :=
  {| isOutput := Js.Undefined;
     send := fun _ => None; status := fun _ => None |}.


Definition cfg (i : Js.Val) : Config :=
  {| address := Js.Str "192.168.0.2"; key := Js.Str "key"; interval := i |}.

Definition raw (uid : string) (bri : Z) : RawInfo :=
  {| raw_uniqueid := uid; raw_payload := bri |}.

(** A server that knows light D1 (brightness 50) and polls every 500 ms. *)
Definition server (nl : Obj.t (Obj.t Node)) : LightServer :=
  {| config := cfg (Js.Number (Js.Fin 500));
     nodeList := nl;
     nodeListCount := 0;
     lights := [("D1", new (raw "D1" 50))];
     lightPollInterval := Some {| delay := Js.Number (Js.Fin 500) |} |}.


(** The subscriptions used below: an input node and an output-only
    node on D1. *)
Definition two_nodes : Obj.t (Obj.t Node) :=
  [("D1", [("n1", reader); ("n2", sink)])].


(** The record of light D1. *)
Definition d1 : LightItem := new (raw "D1" 50).

End Demo.

(** ** Fields an operation leaves alone *)

Section Keeps.

Context {T : LightTypes}.

(** [keeps f m]: running [m] never changes the field [f] of the server. *)
Definition keeps {A B} (f : LightServer -> B) (m : M A) : Prop :=
  forall s, f (final (m s)) = f s.

End Keeps.

(** ** Notions used in the further statements *)

Section Notions.

Context {T : LightTypes} {O : LightOps}.

(** [emits_only P m]: every call [m] makes on a collaborator
    satisfies [P]. *)
Definition emits_only {A} (P : Event -> Prop) (m : M A) : Prop :=
  forall s, Forall P (trace (m s)).


(** The table of lights has each key once, as objects do. *)
Definition lights_wf (s : LightServer) : Prop := NoDup (Obj.keys (lights s)).

(** Every light is stored under its own [uniqueid]. *)
Definition keyed_by_uniqueid (s : LightServer) : Prop :=
  forall k l, Obj.get k (lights s) = Some l -> uniqueid l = k.

(** The element [getLights] builds for one light (line 245). *)
Definition listing (light : LightItem) : Listing :=
  {| l_id := uniqueid light;
     l_info := id (info light);
     l_name := name (info light) |}.

(** The calls made on nodes. *)
Definition is_notification (e : Event) : bool :=
  match e with
  | NodeStatusCall _ _ | NodeSend _ _ => true
  | _ => false
  end.


Definition is_clearInterval (e : Event) : bool :=
  match e with
  | ClearInterval _ => true
  | _ => false
  end.

Definition is_setInterval (e : Event) : bool :=
  match e with
  | SetInterval _ => true
  | _ => false
  end.

(** A call that arms or clears a timer. *)
Definition is_timer_call (e : Event) : bool :=
  is_setInterval e || is_clearInterval e.

(** A call that leaves the timer alone. *)
Definition quiet (e : Event) : Prop := is_timer_call e = false.

Definition is_stop (op : Op) : bool :=
  match op with
  | OpStop => true
  | _ => false
  end.

Definition is_initial_answer (op : Op) : bool :=
  match op with
  | OpInitialAnswer _ _ => true
  | _ => false
  end.






End Notions.

(** ** The Node-RED wrapper and the listing over HTTP *)

Section Wrapper.

Context {T : LightTypes} {O : LightOps}.










End Wrapper.

(** ** Facts about objects *)

Section ObjFacts.

Variable V : Type.
Implicit Types (o : Obj.t V) (k : string) (v : V).

Lemma get_update k k' v o :
  Obj.get k (Obj.update k' v o)
  = if String.eqb k k'
    then match Obj.get k o with Some _ => Some v | None => None end
    else Obj.get k o.
Proof.
  induction o as [|[k1 v1] r IH]; simpl.
  - now destruct (String.eqb k k').
  - destruct (String.eqb k' k1) eqn:E1; simpl.
    + apply String.eqb_eq in E1. subst k1.
      destruct (String.eqb k k'); reflexivity.
    + destruct (String.eqb k k1) eqn:E2.
      * destruct (String.eqb k k') eqn:E3; [|reflexivity].
        apply String.eqb_eq in E2, E3. subst.
        rewrite String.eqb_refl in E1. discriminate.
      * exact IH.
Qed.

Lemma get_insert k k' v o :
  Obj.get k' o = None ->
  Obj.get k (Obj.insert k' v o)
  = if String.eqb k k' then Some v else Obj.get k o.
Proof.
  induction o as [|[k1 v1] r IH]; simpl.
  - reflexivity.
  - destruct (String.eqb k' k1) eqn:E1; [discriminate|]. intros Hnone.
    destruct (Obj.goes_before k' k1); simpl.
    + destruct (String.eqb k k'); reflexivity.
    + destruct (String.eqb k k1) eqn:E2.
      * destruct (String.eqb k k') eqn:E3; [|reflexivity].
        apply String.eqb_eq in E2, E3. subst.
        rewrite String.eqb_refl in E1. discriminate.
      * now apply IH.
Qed.

Lemma keys_update k v o : Obj.keys (Obj.update k v o) = Obj.keys o.
Proof.
  induction o as [|[k1 v1] r IH]; simpl; [reflexivity|].
  destruct (String.eqb k k1); simpl; [reflexivity|].
  f_equal. exact IH.
Qed.

Lemma keys_insert_in k k' v o :
  In k (Obj.keys (Obj.insert k' v o)) -> k = k' \/ In k (Obj.keys o).
Proof.
  induction o as [|[k1 v1] r IH]; simpl.
  - intros [H|[]]; auto.
  - destruct (Obj.goes_before k' k1); simpl.
    + intros [H|[H|H]]; auto.
    + intros [H|H]; auto. destruct (IH H); auto.
Qed.

Lemma nodup_insert k v o :
  ~ In k (Obj.keys o) -> NoDup (Obj.keys o) -> NoDup (Obj.keys (Obj.insert k v o)).
Proof.
  induction o as [|[k1 v1] r IH]; simpl; intros Hk H.
  - constructor; [intros []|constructor].
  - inversion H as [|? ? Hnotin Hnd]; subst.
    destruct (Obj.goes_before k k1); simpl.
    + constructor; [simpl; exact Hk | exact H].
    + constructor.
      * intros Hin. apply keys_insert_in in Hin. destruct Hin as [Heq|Hin].
        -- subst k1. apply Hk. now left.
        -- contradiction.
      * apply IH; auto.
Qed.

Lemma get_set_same k v o : Obj.get k (Obj.set k v o) = Some v.
Proof.
  unfold Obj.set, Obj.hasOwn.
  destruct (Obj.get k o) as [v0|] eqn:E.
  - rewrite get_update, String.eqb_refl, E. reflexivity.
  - rewrite get_insert by assumption. now rewrite String.eqb_refl.
Qed.

Lemma get_set_other k k' v o :
  k <> k' -> Obj.get k (Obj.set k' v o) = Obj.get k o.
Proof.
  intros Hne. apply String.eqb_neq in Hne.
  unfold Obj.set, Obj.hasOwn.
  destruct (Obj.get k' o) as [v0|] eqn:E.
  - now rewrite get_update, Hne.
  - rewrite get_insert by assumption. now rewrite Hne.
Qed.

Lemma get_in_keys k o :
  In k (Obj.keys o) -> exists v, Obj.get k o = Some v.
Proof.
  induction o as [|[k' v'] r IH]; simpl; intros H.
  - contradiction.
  - destruct (String.eqb k k') eqn:E.
    + eauto.
    + destruct H as [H|H].
      * subst k'. rewrite String.eqb_refl in E. discriminate.
      * auto.
Qed.

Lemma get_none_set k k' v o :
  Obj.get k (Obj.set k' v o) = None -> Obj.get k o = None /\ k <> k'.
Proof.
  intros H. destruct (String.eqb k k') eqn:E.
  - apply String.eqb_eq in E. subst k'. rewrite get_set_same in H. discriminate.
  - apply String.eqb_neq in E. rewrite get_set_other in H by assumption. auto.
Qed.

Lemma get_nodup_in k v o :
  NoDup (Obj.keys o) -> In (k, v) o -> Obj.get k o = Some v.
Proof.
  induction o as [|[k' v'] r IH]; simpl; intros Hnd Hin.
  - contradiction.
  - inversion Hnd as [|? ? Hnotin Hnd']; subst.
    destruct Hin as [Heq|Hin].
    + inversion Heq; subst. now rewrite String.eqb_refl.
    + destruct (String.eqb k k') eqn:E.
      * apply String.eqb_eq in E. subst k'.
        exfalso. apply Hnotin. unfold Obj.keys.
        change k with (fst (k, v)). now apply in_map.
      * auto.
Qed.

Lemma keys_set_notin k k' v o :
  In k (Obj.keys (Obj.set k' v o)) -> k = k' \/ In k (Obj.keys o).
Proof.
  unfold Obj.set. destruct (Obj.hasOwn k' o).
  - rewrite keys_update. auto.
  - apply keys_insert_in.
Qed.

Lemma nodup_set k v o : NoDup (Obj.keys o) -> NoDup (Obj.keys (Obj.set k v o)).
Proof.
  intros H. unfold Obj.set, Obj.hasOwn.
  destruct (Obj.get k o) as [v0|] eqn:E.
  - now rewrite keys_update.
  - apply nodup_insert; auto.
    intros Hin. destruct (get_in_keys k o Hin) as [v1 Hv]. congruence.
Qed.




End ObjFacts.

(** ** Facts about numbers *)

Lemma floor_succ_gt (x : Q) : (x < inject_Z (Qfloor (1 + x)))%Q.
Proof.
  pose proof (Qlt_floor (1 + x)) as H.
  rewrite inject_Z_plus in H. simpl in H.
  apply Qplus_lt_l with (z := 1%Q).
  rewrite (Qplus_comm x 1). exact H.
Qed.



Section Rounding.

Open Scope Q_scope.







End Rounding.

(** ** Writes: the suppression deadline *)

Section Write.

Context {T : LightTypes} {O : LightOps}.

Lemma lightChange_known now lightID value s light :
  Obj.get lightID (lights s) = Some light ->
  let light2 :=
    li_updateColor value
      (set_modified (Js.add (Js.Fin now) (Js.Fin 1)) light) in
  let timed :=
    match duration value with
    | Js.Number d => Js.gt0 d
    | _ => false
    end in
  let light3 :=
    match duration value with
    | Js.Number d =>
        if Js.gt0 d
        then set_modified (extend_modified d (modified light2)) light2
        else light2
    | _ => light2
    end in
  lights (final (lightChange now lightID value s))
  = Obj.set lightID light3 (lights s).
Proof.
  intros Hget. unfold lightChange, bind, get_state, modify, tell.
  cbn [outcome final trace].
  unfold Obj.hasOwn. rewrite Hget. cbn [negb].
  destruct (duration value) as [| |b|d|str|];
    cbn [outcome final trace lights set_lights]; try reflexivity.
  destruct (Js.gt0 d); reflexivity.
Qed.

End Write.

Section Deadline.

Context {T : LightTypes}.

Open Scope Q_scope.




End Deadline.

(** ** Running a state update *)

Section RunFacts.

Context {T : LightTypes}.

Lemma final_bind_modify A (g : LightServer -> LightServer) (k : unit -> M A) s :
  final (bind (modify g) k s) = final (k tt (g s)).
Proof. reflexivity. Qed.

Lemma trace_bind_modify A (g : LightServer -> LightServer) (k : unit -> M A) s :
  trace (bind (modify g) k s) = trace (k tt (g s)).
Proof. reflexivity. Qed.

Lemma outcome_bind_modify A (g : LightServer -> LightServer) (k : unit -> M A) s :
  outcome (bind (modify g) k s) = outcome (k tt (g s)).
Proof. reflexivity. Qed.

Lemma trace_bind_get_state A (k : LightServer -> M A) s :
  trace (bind get_state k s) = trace (k s s).
Proof. reflexivity. Qed.

Lemma bind_normal A C (m : M A) (k : A -> M C) s a :
  outcome (m s) = Js.Normal a ->
  bind m k s
  = {| outcome := outcome (k a (final (m s)));
       final := final (k a (final (m s)));
       trace := trace (m s) ++ trace (k a (final (m s))) |}.
Proof. intros H. unfold bind. rewrite H. reflexivity. Qed.

Lemma bind_throw A C (m : M A) (k : A -> M C) s e :
  outcome (m s) = Js.Throw e ->
  bind m k s
  = {| outcome := Js.Throw e; final := final (m s); trace := trace (m s) |}.
Proof. intros H. unfold bind. rewrite H. reflexivity. Qed.

End RunFacts.

(** ** Which fields the operations leave alone *)

Section KeepsFacts.

Context {T : LightTypes} {O : LightOps}.

Variables (B : Type) (f : LightServer -> B).

Lemma keeps_ret A (a : A) : keeps f (ret a).
Proof. intros s. reflexivity. Qed.

Lemma keeps_throw A (e : Js.Exn) : keeps f (throw (A := A) e).
Proof. intros s. reflexivity. Qed.

Lemma keeps_tell (e : Event) : keeps f (tell e).
Proof. intros s. reflexivity. Qed.

Lemma keeps_get_state : keeps f get_state.
Proof. intros s. reflexivity. Qed.

Lemma keeps_modify (g : LightServer -> LightServer) :
  (forall s, f (g s) = f s) -> keeps f (modify g).
Proof. intros H s. apply H. Qed.

Lemma keeps_bind A C (m : M A) (k : A -> M C) :
  keeps f m -> (forall a, keeps f (k a)) -> keeps f (bind m k).
Proof.
  intros Hm Hk s. unfold bind.
  destruct (outcome (m s)) as [a|e] eqn:E; simpl.
  - rewrite Hk. apply Hm.
  - apply Hm.
Qed.

Lemma keeps_try_catch A (m : M A) (h : Js.Exn -> M A) :
  keeps f m -> (forall e, keeps f (h e)) -> keeps f (try_catch m h).
Proof.
  intros Hm Hh s. unfold try_catch.
  destruct (outcome (m s)) as [a|e] eqn:E; simpl.
  - apply Hm.
  - rewrite Hh. apply Hm.
Qed.

Lemma keeps_forEach X (g : X -> M unit) (l : list X) :
  (forall x, keeps f (g x)) -> keeps f (forEach g l).
Proof.
  intros Hg. induction l as [|x r IH]; simpl.
  - apply keeps_ret.
  - apply keeps_bind; auto.
Qed.

Lemma keeps_host_call (r : option Js.Exn) : keeps f (host_call r).
Proof. destruct r; [apply keeps_throw | apply keeps_ret]. Qed.

Lemma keeps_err_toString (err : option string) : keeps f (err_toString err).
Proof. destruct err; [apply keeps_ret | apply keeps_throw]. Qed.

Lemma keeps_call_channel (c msg : string) : keeps f (call_channel c msg).
Proof.
  unfold call_channel. destruct (has_member c);
    [apply keeps_tell | apply keeps_throw].
Qed.

End KeepsFacts.

Create HintDb keeps.

#[local] Hint Resolve keeps_ret keeps_throw keeps_tell keeps_get_state
  keeps_host_call keeps_err_toString keeps_call_channel : keeps.

(** Breaks a [keeps] goal down along the structure of the operation. *)
Ltac keeps_step :=
  match goal with
  | |- keeps _ (bind _ _) => apply keeps_bind; [|intros ?]
  | |- keeps _ (try_catch _ _) => apply keeps_try_catch; [|intros ?]
  | |- keeps _ (forEach _ _) => apply keeps_forEach; intros ?
  | |- keeps _ (match ?x with _ => _ end) => destruct x
  | |- keeps _ (modify _) => apply keeps_modify; intros ?
  | |- keeps _ _ => solve [auto with keeps]
  end.

Section KeepsOps.

Context {T : LightTypes} {O : LightOps}.

Lemma keeps_lookup_node B (f : LightServer -> B) uid nodeID :
  keeps f (lookup_node uid nodeID).
Proof. unfold lookup_node. repeat keeps_step. Qed.

Lemma keeps_node_send B (f : LightServer -> B) nodeID node c :
  keeps f (node_send nodeID node c).
Proof. unfold node_send. repeat keeps_step. Qed.

Lemma keeps_updateNodeStatus B (f : LightServer -> B) light nodeID node :
  keeps f (updateNodeStatus light nodeID node).
Proof. unfold updateNodeStatus, node_status. repeat keeps_step. Qed.

Lemma keeps_on_change B (f : LightServer -> B) light : keeps f (on_change light).
Proof.
  unfold on_change.
  repeat (keeps_step || apply keeps_lookup_node || apply keeps_node_send
          || apply keeps_updateNodeStatus).
Qed.

Lemma keeps_statusUpdateLight B (f : LightServer -> B) light :
  keeps f (statusUpdateLight light).
Proof.
  unfold statusUpdateLight.
  repeat (keeps_step || apply keeps_lookup_node || apply keeps_node_send
          || apply keeps_updateNodeStatus).
Qed.

(** The fan-out never changes the server. *)
Lemma on_change_final light s : final (on_change light s) = s.
Proof. apply (keeps_on_change (fun s => s)). Qed.

Lemma statusUpdateLight_final light s : final (statusUpdateLight light s) = s.
Proof. apply (keeps_statusUpdateLight (fun s => s)). Qed.

End KeepsOps.

Section KeepsServer.

Context {T : LightTypes} {O : LightOps}.

Variables (B : Type) (f : LightServer -> B).

(** [f] does not read the table of lights. *)
Hypothesis f_lights : forall l s, f (set_lights l s) = f s.

Lemma keeps_addLight info : keeps f (addLight info).
Proof.
  unfold addLight.
  repeat (keeps_step || apply keeps_statusUpdateLight || apply f_lights).
Qed.

Lemma keeps_poll_one now info : keeps f (poll_one now info).
Proof.
  unfold poll_one.
  repeat (keeps_step || apply keeps_addLight || apply keeps_on_change
          || apply f_lights).
Qed.

Lemma keeps_processLights now err data : keeps f (processLights now err data).
Proof.
  unfold processLights.
  repeat (keeps_step || apply keeps_poll_one).
Qed.

Lemma keeps_lightChange now lightID value : keeps f (lightChange now lightID value).
Proof.
  unfold lightChange.
  repeat (keeps_step || apply f_lights).
Qed.

Lemma keeps_setLightState_done err : keeps f (setLightState_done err).
Proof. unfold setLightState_done. repeat keeps_step. Qed.

(** [f] does not read the timer handle either. *)
Hypothesis f_timer : forall t s, f (set_lightPollInterval t s) = f s.



End KeepsServer.

Section Registered.

Context {T : LightTypes} {O : LightOps}.

Lemma hasOwn_set (V : Type) (k k' : string) (v : V) (o : Obj.t V) :
  Obj.hasOwn k (Obj.set k' v o) = Obj.hasOwn k o || String.eqb k' k.
Proof.
  unfold Obj.hasOwn. destruct (String.eqb k' k) eqn:E.
  - apply String.eqb_eq in E. subst k'. rewrite get_set_same.
    now rewrite orb_true_r.
  - apply String.eqb_neq in E. rewrite get_set_other by congruence.
    now rewrite orb_false_r.
Qed.







End Registered.

(** ** The change listener without a subscription entry *)

Section ChangeListener.

Context {T : LightTypes} {O : LightOps}.



Lemma statusUpdateLight_no_entry light s :
  Obj.get (uniqueid light) (nodeList s) = None ->
  statusUpdateLight light s
  = {| outcome := Js.Normal tt; final := s; trace := [] |}.
Proof.
  intros H. unfold statusUpdateLight, bind, get_state, Obj.hasOwn. simpl.
  rewrite H. reflexivity.
Qed.


End ChangeListener.

(** ** The periodic reconciliation *)

Section Poll.

Context {T : LightTypes} {O : LightOps}.

Lemma forEach_app_throw X (g : X -> M unit) l1 x l2 s e :
  outcome (forEach g l1 s) = Js.Normal tt ->
  outcome (g x (final (forEach g l1 s))) = Js.Throw e ->
  forEach g (l1 ++ x :: l2) s
  = {| outcome := Js.Throw e;
       final := final (g x (final (forEach g l1 s)));
       trace := trace (forEach g l1 s) ++ trace (g x (final (forEach g l1 s))) |}.
Proof.
  revert s. induction l1 as [|y r IH]; intros s Hpre Hx; simpl in *.
  - unfold bind. rewrite Hx. reflexivity.
  - unfold bind in *.
    destruct (outcome (g y s)) as [[]|e'] eqn:Ey; simpl in *; [|discriminate].
    rewrite (IH (final (g y s))) by assumption. simpl.
    now rewrite app_assoc.
Qed.

(** C10.  Inside a pass whose fetch succeeded ([err] is [null]), when
    the handling of one light throws, the [catch] block evaluates
    [err.toString()] on [null]: the pass ends with a TypeError thrown
    out of [processLights] at that light, and the lights after it in the
    snapshot are not processed (the state and the trace are those
    reached at the failing light, whatever follows it). *)
Theorem processLights_failure_aborts_pass now l1 info l2 s e :
  let pre := processLights now None l1 s in
  let one := poll_one now info (final pre) in
  outcome pre = Js.Normal tt ->
  outcome one = Js.Throw e ->
  processLights now None (l1 ++ info :: l2) s
  = {| outcome :=
         Js.Throw (Js.TypeError "Cannot read properties of null (reading 'toString')");
       final := final one;
       trace := trace pre ++ trace one |}.
Proof.
  intros pre one Hpre Hone. unfold processLights in *.
  erewrite forEach_app_throw.
  - fold pre. unfold try_catch. fold one. rewrite Hone. simpl.
    now rewrite app_nil_r.
  - exact Hpre.
  - fold pre. unfold try_catch. fold one. rewrite Hone. reflexivity.
Qed.

(** C8.  On a tick whose fetch failed, [processLights] calls
    [lightServer.warn], which a [LightServer] does not have: a TypeError
    leaves the callback and nothing is reported.  The server is left as
    it was (no light created or updated, timer handle untouched) and no
    node is notified. *)
Theorem processLights_fetch_error_throws now msg data s :
  processLights now (Some msg) data s
  = {| outcome := Js.Throw (Js.TypeError "warn is not a function");
       final := s; trace := [] |}.
Proof. reflexivity. Qed.

End Poll.

(** ** Construction and the initial fetch *)

Section Start.

Context {T : LightTypes} {O : LightOps}.

(** Neither reporting channel is a member of the server object. *)
Lemma no_reporting_member : has_member "warn" = false /\ has_member "error" = false.
Proof. split; reflexivity. Qed.

(** The only configured interval the constructor keeps is the string
    ['number'] itself. *)
Lemma interval_after_construction cfg :
  interval (config (final (LightServer_new cfg)))
  = if Js.strict_eq (interval cfg) (Js.Str "number")
    then interval cfg
    else Js.Number (Js.Fin 500).
Proof.
  unfold LightServer_new, Js.strict_neq, Js.undefined_lt.
  cbn [final config]. rewrite orb_false_r.
  destruct (Js.strict_eq (interval cfg) (Js.Str "number")); reflexivity.
Qed.

(** C3.  When the initial fetch fails, the callback calls [self.error],
    which a [LightServer] does not have: a TypeError leaves the callback
    and the failure itself is not reported.  The timer is not armed, no
    light is recorded and [getLights] returns the empty array. *)
Theorem initialFetch_error_throws cfg msg data :
  let s0 := final (LightServer_new cfg) in
  initialFetch (Some msg) data s0
  = {| outcome := Js.Throw (Js.TypeError "error is not a function");
       final := s0; trace := [] |} /\
  lights s0 = [] /\
  lightPollInterval s0 = None /\
  getLights s0 = {| outcome := Js.Normal []; final := s0; trace := [] |}.
Proof. repeat split. Qed.

Lemma addLight_no_nodes info s :
  nodeList s = [] ->
  outcome (addLight info s) = Js.Normal (li_new info) /\
  trace (addLight info s) = [].
Proof.
  intros H. unfold addLight.
  rewrite outcome_bind_modify, trace_bind_modify.
  unfold bind. rewrite statusUpdateLight_no_entry.
  - simpl. auto.
  - simpl. rewrite H. reflexivity.
Qed.

Lemma initial_lights_added data s :
  nodeList s = [] ->
  outcome (forEach (fun item => addLight item ;; ret tt) data s) = Js.Normal tt /\
  trace (forEach (fun item => addLight item ;; ret tt) data s) = [].
Proof.
  revert s. induction data as [|item r IH]; intros s H; cbn [forEach].
  - auto.
  - destruct (addLight_no_nodes item s H) as [Ho Ht].
    assert (Hn : nodeList (final (addLight item s)) = []).
    { rewrite (keeps_addLight nodeList); auto. }
    destruct (IH _ Hn) as [Ho' Ht'].
    assert (Hb : bind (addLight item) (fun _ => ret tt) s
                 = {| outcome := Js.Normal tt; final := final (addLight item s);
                      trace := [] |}).
    { rewrite (bind_normal _ _ _ Ho). rewrite Ht. reflexivity. }
    erewrite bind_normal by (rewrite Hb; reflexivity).
    rewrite Hb. cbn [outcome final trace]. rewrite Ht'. auto.
Qed.

(** C2.  Whatever number the configuration gives as poll interval, the
    test of line 54 ([self.config.interval !== 'number']) holds and the
    interval is replaced by 500: after a successful initial fetch the
    timer is armed with 500 ms, not with the configured interval. *)
Theorem numeric_interval_overridden (a k : Js.Val) (n : Js.Num) data :
  let s0 := final (LightServer_new {| address := a; key := k;
                                      interval := Js.Number n |}) in
  let r := initialFetch None data s0 in
  outcome r = Js.Normal tt /\
  trace r = [SetInterval (Js.Number (Js.Fin 500))] /\
  lightPollInterval (final r) = Some {| delay := Js.Number (Js.Fin 500) |}.
Proof.
  intros s0 r.
  assert (Hn : nodeList s0 = []) by reflexivity.
  destruct (initial_lights_added data s0 Hn) as [Ho Ht].
  assert (Hc : config (final (forEach (fun item => addLight item ;; ret tt) data s0))
               = config s0).
  { apply (keeps_forEach (f := config)). intros x.
    apply keeps_bind; [apply keeps_addLight; reflexivity | intros; apply keeps_ret]. }
  unfold r, initialFetch. erewrite bind_normal by exact Ho.
  set (pre := forEach _ data s0) in *.
  unfold bind, get_state, tell, modify.
  cbn [outcome final trace lightPollInterval set_lightPollInterval].
  rewrite Ht, Hc.
  destruct n; auto.
Qed.

End Start.

(** ** Writes to unknown lights, registration, shutdown *)

Section Public.

Context {T : LightTypes} {O : LightOps}.



End Public.

Section Shutdown.

Context {T : LightTypes} {O : LightOps}.

(** The loop of [stop] over the keys of the table of lights. *)
Lemma stop_loop (l : list string) s :
  (forall k, In k l -> In k (Obj.keys (lights s))) ->
  outcome (forEach (fun uid =>
                      s1 <- get_state ;;
                      match Obj.get uid (lights s1) with
                      | Some light => tell (LightStop (uniqueid light))
                      | None => throw (Js.TypeError "Cannot read properties of undefined")
                      end) l s) = Js.Normal tt /\
  final (forEach (fun uid =>
                    s1 <- get_state ;;
                    match Obj.get uid (lights s1) with
                    | Some light => tell (LightStop (uniqueid light))
                    | None => throw (Js.TypeError "Cannot read properties of undefined")
                    end) l s) = s.
Proof.
  induction l as [|k r IH]; intros Hin; cbn [forEach].
  - auto.
  - destruct (get_in_keys k (lights s)) as [light Hl]; [apply Hin; now left|].
    destruct IH as [Ho Hf]; [intros; apply Hin; now right|].
    match goal with
    | |- outcome (bind ?m ?k' s) = _ /\ _ =>
        assert (Hm : m s = {| outcome := Js.Normal tt; final := s;
                              trace := [LightStop (uniqueid light)] |})
    end.
    { unfold bind, get_state. cbn [outcome final trace]. rewrite Hl. reflexivity. }
    erewrite bind_normal by (rewrite Hm; reflexivity).
    rewrite Hm. cbn [outcome final trace]. auto.
Qed.

Lemma stop_result s :
  outcome (stop s) = Js.Normal tt /\
  final (stop s) = set_lights Obj.empty (set_lightPollInterval None s) /\
  forall h, lightPollInterval s = Some h -> In (ClearInterval h) (trace (stop s)).
Proof.
  unfold stop.
  match goal with
  | |- outcome (bind get_state ?k s) = _ /\ _ =>
      change (bind get_state k s)
        with {| outcome := outcome (k s s); final := final (k s s);
                trace := trace (k s s) |}
  end.
  cbn [outcome final trace].
  set (timer := match lightPollInterval s with
                | Some h => tell (ClearInterval h)
                | None => ret tt
                end).
  assert (Ht : timer s = {| outcome := Js.Normal tt; final := s;
                            trace := match lightPollInterval s with
                                     | Some h => [ClearInterval h]
                                     | None => []
                                     end |}).
  { unfold timer. destruct (lightPollInterval s); reflexivity. }
  erewrite bind_normal by (rewrite Ht; reflexivity).
  rewrite Ht. cbn [outcome final trace].
  erewrite bind_normal by reflexivity.
  cbn [outcome final trace modify app].
  destruct (stop_loop (Obj.keys (lights s)) (set_lightPollInterval None s))
    as [Ho Hf]; [auto|].
  erewrite bind_normal by exact Ho.
  rewrite Hf. cbn [outcome final trace modify].
  repeat split.
  intros h Hh. rewrite Hh. apply in_or_app. left. now left.
Qed.

(** C7.  [stop] completes normally, clears the poll timer when one is
    armed and forgets its handle, and empties the table of lights; a
    second call right after it completes normally too, makes no call on
    any collaborator and leaves the server as the first call left it. *)
Theorem stop_idempotent s :
  let r1 := stop s in
  let r2 := stop (final r1) in
  outcome r1 = Js.Normal tt /\
  lightPollInterval (final r1) = None /\
  lights (final r1) = [] /\
  (forall h, lightPollInterval s = Some h -> In (ClearInterval h) (trace r1)) /\
  r2 = {| outcome := Js.Normal tt; final := final r1; trace := [] |}.
Proof.
  intros r1 r2. destruct (stop_result s) as [Ho [Hf Ht]].
  unfold r2, r1. rewrite Hf.
  repeat split; auto.
Qed.

End Shutdown.

(** ** The fan-out of a change *)

Section FanoutFacts.

Context {T : LightTypes} {O : LightOps}.










End FanoutFacts.

Section Dispatch.

Context {T : LightTypes} {O : LightOps}.









End Dispatch.

(** ** The statements at concrete servers *)

Section Concrete.

Import Demo.

(** A tick that reports a new brightness for D1 updates the record and
    pushes the new state to the input node subscribed to D1, not to the
    output-only node. *)
Example tick_dispatches_change :
  processLights 10 None [raw "D1" 80]
                (server [("D1", [("n1", reader); ("n2", sink)])])
  = {| outcome := Js.Normal tt;
       final := {| config := cfg (Js.Number (Js.Fin 500));
                   nodeList := [("D1", [("n1", reader); ("n2", sink)])];
                   nodeListCount := 0;
                   lights := [("D1", new (raw "D1" 80))];
                   lightPollInterval := Some {| delay := Js.Number (Js.Fin 500) |} |};
       trace := [ NodeStatusCall "n1" (li_status d1); NodeSend "n1" 80%Z;
                  NodeStatusCall "n2" (li_status d1) ] |}.
Proof. reflexivity. Qed.

(** Writes at uptime 10: over 2000 ms the deadline of D1 becomes
    10 + 1 + floor(1 + 2) = 14; over 999.9999999999999 ms the quotient
    rounds to 0.9999999999999999 and the sum with 1 to 2, so that the
    deadline is 13; without a duration it is 11. *)
Example write_deadlines :
  let deadline v :=
    option_map modified (Obj.get "D1" (lights (final (lightChange 10 "D1" v (server []))))) in
  deadline {| duration := Js.Number (Js.Fin 2000); change := 80%Z |}
  = Some (Js.Fin 14) /\
  deadline {| duration := Js.Number (Js.Fin (8796093022207999 # 8796093022208));
              change := 80%Z |}
  = Some (Js.Fin 13) /\
  deadline {| duration := Js.Undefined; change := 80%Z |}
  = Some (Js.Fin 11).
Proof. vm_compute. repeat split. Qed.

(** Sums and quotients are those of binary64: 0.1 + 0.2 is
    0.30000000000000004 and 2^53 + 1 is 2^53. *)
Example double_arithmetic :
  Js.add (Js.Fin (3602879701896397 # 36028797018963968))
         (Js.Fin (3602879701896397 # 18014398509481984))
  = Js.Fin (1351079888211149 # 4503599627370496) /\
  Js.add (Js.Fin 9007199254740992) (Js.Fin 1) = Js.Fin 9007199254740992 /\
  Js.div_pos (Js.Fin 1) 1000
  = Js.Fin (1152921504606847 # 1152921504606846976).
Proof. vm_compute. repeat split. Qed.

(** Keys that are array indices are enumerated first, by ascending
    index, whenever they were added; the others follow in the order in
    which they were added. *)
Example keys_enumeration :
  Obj.keys (Obj.set "1" 1%Z (Obj.set "b" 2%Z (Obj.set "10" 3%Z
             (Obj.set "2" 4%Z (Obj.set "a" 5%Z (Obj.set "01" 6%Z Obj.empty))))))
  = ["1"; "2"; "10"; "01"; "a"; "b"] /\
  Obj.keys (Obj.set "a" 7%Z (Obj.set "b" 2%Z (Obj.set "a" 5%Z Obj.empty)))
  = ["a"; "b"].
Proof. split; reflexivity. Qed.

(** Nodes registered for D1 under the ids 2 and then 1 are notified of
    a change in the order 1, 2. *)
Example index_ids_notified_in_numeric_order :
  let s := final (nodeRegister "D1" "1" sink
                    (final (nodeRegister "D1" "2" reader (server [])))) in
  trace (on_change d1 s)
  = [ NodeStatusCall "1" {| fill := "yellow"; shape := "dot"; text := "on" |};
      NodeStatusCall "2" {| fill := "yellow"; shape := "dot"; text := "on" |};
      NodeSend "2" 50%Z ].
Proof. reflexivity. Qed.








Lemma processLights_failure_aborts_pass_witness :
  let s := server [] in
  let pre := processLights 10 None [raw "D3" 5] s in
  let one := poll_one 10 (raw "D1" 80) (final pre) in
  outcome pre = Js.Normal tt /\
  outcome one
  = Js.Throw (Js.TypeError "Cannot convert undefined or null to object") /\
  processLights 10 None ([raw "D3" 5] ++ raw "D1" 80 :: [raw "D2" 10]) s
  = {| outcome :=
         Js.Throw (Js.TypeError "Cannot read properties of null (reading 'toString')");
       final := final one;
       trace := trace pre ++ trace one |}.
Proof.
  intros s pre one. split; [reflexivity|]. split; [reflexivity|].
  apply (processLights_failure_aborts_pass 10 [raw "D3" 5] (raw "D1" 80)
           [raw "D2" 10] s
           (e := Js.TypeError "Cannot convert undefined or null to object")).
  - reflexivity.
  - reflexivity.
Defined.



End Concrete.

(** ** Traces along the structure of an operation *)

Section EmitsFacts.

Context {T : LightTypes} {O : LightOps}.

Variable P : Event -> Prop.

Lemma emits_ret A (a : A) : emits_only P (ret a).
Proof. intros s. constructor. Qed.

Lemma emits_throw A (e : Js.Exn) : emits_only P (throw (A := A) e).
Proof. intros s. constructor. Qed.

Lemma emits_get_state : emits_only P get_state.
Proof. intros s. constructor. Qed.

Lemma emits_modify (g : LightServer -> LightServer) : emits_only P (modify g).
Proof. intros s. constructor. Qed.

Lemma emits_tell (e : Event) : P e -> emits_only P (tell e).
Proof. intros H s. constructor; [exact H|constructor]. Qed.

Lemma emits_bind A C (m : M A) (k : A -> M C) :
  emits_only P m -> (forall a, emits_only P (k a)) -> emits_only P (bind m k).
Proof.
  intros Hm Hk s. unfold bind.
  destruct (outcome (m s)) as [a|e] eqn:E; cbn [trace].
  - apply Forall_app. split; [apply Hm | apply Hk].
  - apply Hm.
Qed.

Lemma emits_try_catch A (m : M A) (h : Js.Exn -> M A) :
  emits_only P m -> (forall e, emits_only P (h e)) -> emits_only P (try_catch m h).
Proof.
  intros Hm Hh s. unfold try_catch.
  destruct (outcome (m s)) as [a|e] eqn:E; cbn [trace].
  - apply Hm.
  - apply Forall_app. split; [apply Hm | apply Hh].
Qed.

Lemma emits_forEach X (g : X -> M unit) (l : list X) :
  (forall x, emits_only P (g x)) -> emits_only P (forEach g l).
Proof.
  intros Hg. induction l as [|x r IH]; cbn [forEach].
  - apply emits_ret.
  - apply emits_bind; auto.
Qed.

Lemma emits_host_call (r : option Js.Exn) : emits_only P (host_call r).
Proof. destruct r; [apply emits_throw | apply emits_ret]. Qed.

Lemma emits_err_toString (err : option string) : emits_only P (err_toString err).
Proof. destruct err; [apply emits_ret | apply emits_throw]. Qed.

(** Neither reporting channel exists, so a call of one emits nothing. *)
Lemma emits_call_channel_warn msg : emits_only P (call_channel "warn" msg).
Proof. intros s. constructor. Qed.

Lemma emits_call_channel_error msg : emits_only P (call_channel "error" msg).
Proof. intros s. constructor. Qed.

Lemma emits_lookup_node uid nodeID : emits_only P (lookup_node uid nodeID).
Proof.
  unfold lookup_node. apply emits_bind; [apply emits_get_state|].
  intros s. destruct (Obj.get uid (nodeList s)) as [tbl|];
    [|apply emits_throw].
  destruct (Obj.get nodeID tbl); [apply emits_ret | apply emits_throw].
Qed.

End EmitsFacts.

Create HintDb emits.

#[local] Hint Resolve emits_ret emits_throw emits_get_state emits_modify
  emits_host_call emits_err_toString emits_call_channel_warn
  emits_call_channel_error emits_lookup_node : emits.

(** Breaks an [emits_only] goal down along the operation. *)
Ltac emits_step :=
  match goal with
  | |- emits_only _ (bind _ _) => apply emits_bind; [|intros ?]
  | |- emits_only _ (try_catch _ _) => apply emits_try_catch; [|intros ?]
  | |- emits_only _ (forEach _ _) => apply emits_forEach; intros ?
  | |- emits_only _ (tell _) => apply emits_tell
  | |- emits_only _ (match ?x with _ => _ end) => destruct x
  | |- emits_only _ _ => solve [auto with emits]
  end.

(** ** More facts about objects *)

Section ObjMore.

Variable V : Type.
Implicit Types (o : Obj.t V) (k : string) (v : V).
















End ObjMore.

(** ** The fan-out, whatever the test on [isOutput] *)

Section FanoutBy.

Context {T : LightTypes} {O : LightOps}.

Variable pushes : Js.Val -> bool.










End FanoutBy.

Section FanoutRuns.

Context {T : LightTypes} {O : LightOps}.





End FanoutRuns.

(** ** The subscription registry *)

Section Subscriptions.

Context {T : LightTypes} {O : LightOps}.

Lemma nodeUnregister_run lightID nodeID s :
  nodeUnregister lightID nodeID s
  = {| outcome := Js.Normal tt;
       final := match Obj.get lightID (nodeList s) with
                | Some tbl =>
                    if Obj.hasOwn nodeID tbl
                    then set_nodeList
                           (Obj.set lightID (Obj.del nodeID tbl) (nodeList s)) s
                    else s
                | None => s
                end;
       trace := [] |}.
Proof.
  unfold nodeUnregister, bind, get_state.
  cbn [outcome final trace].
  destruct (Obj.get lightID (nodeList s)) as [tbl|] eqn:Htbl.
  - replace (Obj.hasOwn lightID (nodeList s)) with true
      by (unfold Obj.hasOwn; now rewrite Htbl).
    cbn [negb]. destruct (Obj.hasOwn nodeID tbl); reflexivity.
  - replace (Obj.hasOwn lightID (nodeList s)) with false
      by (unfold Obj.hasOwn; now rewrite Htbl).
    reflexivity.
Qed.






End Subscriptions.

Section Registration.

Context {T : LightTypes} {O : LightOps}.

Lemma keeps_nodeRegister B (f : LightServer -> B) lightID nodeID node :
  (forall n s, f (set_nodeList n s) = f s) ->
  keeps f (nodeRegister lightID nodeID node).
Proof.
  intros Hf. unfold nodeRegister.
  apply keeps_bind; [apply keeps_modify; intros s0|intros _].
  { destruct (negb (Obj.hasOwn lightID (nodeList s0))); [apply Hf|reflexivity]. }
  apply keeps_bind; [apply keeps_modify; intros s0|intros _].
  { destruct (Obj.get lightID (nodeList s0)); [apply Hf|reflexivity]. }
  repeat (keeps_step || apply keeps_updateNodeStatus || apply keeps_node_send).
  unfold node_status. repeat keeps_step.
Qed.







End Registration.

(** ** What a reconciliation does to the table of lights *)

Section Reconcile.

Context {T : LightTypes} {O : LightOps}.

Lemma final_bind_get_state A (k : LightServer -> M A) s :
  final (bind get_state k s) = final (k s s).
Proof. reflexivity. Qed.


Lemma addLight_final info s :
  final (addLight info s)
  = set_lights (Obj.set (uniqueid (li_new info)) (li_new info) (lights s)) s.
Proof.
  unfold addLight. rewrite final_bind_modify.
  match goal with
  | |- final (?m ?s') = _ => assert (Hk : keeps (fun x => x) m)
  end.
  { repeat (keeps_step || apply keeps_statusUpdateLight). }
  apply Hk.
Qed.

Lemma poll_one_final now info s :
  final (poll_one now info s)
  = match Obj.get (raw_uniqueid info) (lights s) with
    | None =>
        set_lights (Obj.set (uniqueid (li_new info)) (li_new info) (lights s)) s
    | Some light =>
        set_lights (Obj.set (raw_uniqueid info)
                      (fst (li_updateInfo now info light)) (lights s)) s
    end.
Proof.
  unfold poll_one. rewrite final_bind_get_state. unfold Obj.hasOwn.
  destruct (Obj.get (raw_uniqueid info) (lights s)) as [light|]; cbn [negb].
  - destruct (li_updateInfo now info light) as [light' changed]. cbn [fst].
    rewrite final_bind_modify.
    destruct changed; [apply on_change_final | reflexivity].
  - match goal with
    | |- final (bind ?m ?k s) = _ =>
        assert (Hk : forall a, keeps (fun x => x) (k a))
          by (intros; apply keeps_ret)
    end.
    unfold bind.
    destruct (outcome (addLight info s)); cbn [final]; apply addLight_final.
Qed.

(** The state a pass ends in is reached by the single lights, one
    after the other, up to the one where the pass is left. *)
Lemma processLights_inv (P : LightServer -> Prop) now err data s :
  (forall info s0, In info data -> P s0 -> P (final (poll_one now info s0))) ->
  P s -> P (final (processLights now err data s)).
Proof.
  intros Hone. unfold processLights. destruct err as [msg|].
  - intros H. now rewrite (keeps_bind (f := fun x => x)) by
      (intros; auto using keeps_err_toString, keeps_call_channel).
  - revert s. induction data as [|info r IH]; intros s H; cbn [forEach].
    + exact H.
    + assert (Hturn : P (final (try_catch (poll_one now info)
                                  (fun _ => msg <- err_toString None ;;
                                            call_channel "warn" msg) s))).
      { unfold try_catch.
        destruct (outcome (poll_one now info s)); cbn [final];
          apply Hone; auto; now left. }
      unfold bind at 1.
      match goal with
      | |- P (final (match outcome ?x with _ => _ end)) =>
          destruct (outcome x); cbn [final]
      end.
      * apply IH; [intros; apply Hone; auto; now right | exact Hturn].
      * exact Hturn.
Qed.

Lemma initialFetch_inv (P : LightServer -> Prop) err data s :
  (forall item s0, In item data -> P s0 -> P (final (addLight item s0))) ->
  (forall t s0, P s0 -> P (set_lightPollInterval t s0)) ->
  P s -> P (final (initialFetch err data s)).
Proof.
  intros Hone Htimer. unfold initialFetch. destruct err as [msg|].
  - intros H. now rewrite (keeps_bind (f := fun x => x)) by
      (intros; auto using keeps_err_toString, keeps_call_channel).
  - intros H.
    assert (Hloop : forall l s0, incl l data -> P s0 ->
               P (final (forEach (fun item => addLight item ;; ret tt) l s0))).
    { induction l as [|item r IH]; intros s0 Hincl H0; cbn [forEach].
      - exact H0.
      - assert (Hturn : P (final ((addLight item ;; ret tt) s0))).
        { unfold bind. destruct (outcome (addLight item s0)); cbn [final];
            apply Hone; auto; apply Hincl; now left. }
        unfold bind at 1.
        match goal with
        | |- P (final (match outcome ?x with _ => _ end)) =>
            destruct (outcome x); cbn [final]
        end.
        + apply IH; [intros x Hx; apply Hincl; now right | exact Hturn].
        + exact Hturn. }
    unfold bind at 1.
    match goal with
    | |- P (final (match outcome ?x with _ => _ end)) =>
        destruct (outcome x) eqn:E; cbn [final]
    end.
    + apply Htimer. apply Hloop; [apply incl_refl | exact H].
    + apply Hloop; [apply incl_refl | exact H].
Qed.

Lemma lightChange_final_lights now lightID value s :
  exists o,
    lights (final (lightChange now lightID value s)) = o /\
    (o = lights s \/
     exists light light',
       Obj.get lightID (lights s) = Some light /\
       uniqueid light' = uniqueid (li_updateColor value
                                     (set_modified (Js.add (Js.Fin now) (Js.Fin 1)) light)) /\
       o = Obj.set lightID light' (lights s)).
Proof.
  eexists. split; [reflexivity|].
  destruct (Obj.get lightID (lights s)) as [light|] eqn:Hl.
  - right. rewrite (lightChange_known now lightID value s Hl).
    exists light. eexists. split; [reflexivity|]. split; [|reflexivity].
    destruct (duration value) as [| |b|d|str|]; try reflexivity.
    destruct (Js.gt0 d); reflexivity.
  - left. unfold lightChange, bind, get_state, Obj.hasOwn.
    cbn [outcome final trace]. rewrite Hl. reflexivity.
Qed.

End Reconcile.

Section ReconcileOne.

Context {T : LightTypes} {O : LightOps}.





End ReconcileOne.

(** ** The table of lights along a history *)

Section LightsTable.

Context {T : LightTypes} {O : LightOps}.

Lemma hasOwn_set_mono (V : Type) k k' (v : V) o :
  Obj.hasOwn k o = true -> Obj.hasOwn k (Obj.set k' v o) = true.
Proof. intros H. rewrite hasOwn_set, H. reflexivity. Qed.

Lemma poll_one_known_stays k now info s :
  Obj.hasOwn k (lights s) = true ->
  Obj.hasOwn k (lights (final (poll_one now info s))) = true.
Proof.
  intros H. rewrite poll_one_final.
  destruct (Obj.get (raw_uniqueid info) (lights s));
    cbn [lights set_lights]; now apply hasOwn_set_mono.
Qed.

(** X9.  Only [stop] removes lights: whatever else happens (a poll
    answer that no longer reports the light, a failed fetch, a write,
    a registration), a light that is known stays known. *)
Theorem lights_only_removed_by_stop k op s :
  is_stop op = false ->
  Obj.hasOwn k (lights s) = true ->
  Obj.hasOwn k (lights (final (step op s))) = true.
Proof.
  intros Hop H. destruct op; cbn [step]; try discriminate.
  - apply (initialFetch_inv (fun s0 => Obj.hasOwn k (lights s0) = true)); auto.
    intros item s0 _ H0. rewrite addLight_final. cbn [lights set_lights].
    now apply hasOwn_set_mono.
  - exact H.
  - apply (processLights_inv (fun s0 => Obj.hasOwn k (lights s0) = true)); auto.
    intros info s0 _ H0. now apply poll_one_known_stays.
  - now rewrite (keeps_setLightState_done (fun s0 => s0)).
  - now rewrite (keeps_nodeRegister lights).
  - rewrite nodeUnregister_run. cbn [final].
    destruct (Obj.get lightID (nodeList s)) as [tbl|]; [|exact H].
    destruct (Obj.hasOwn nodeID tbl); exact H.
  - destruct (lightChange_final_lights now lightID value s) as [o [Ho Hcase]].
    rewrite Ho. destruct Hcase as [->|[light [light' [_ [_ ->]]]]]; auto.
    now apply hasOwn_set_mono.
Qed.

(** X10.  A pass does not touch the lights that its snapshot does not
    report: their records are the same objects afterwards, whether the
    pass completed or was left early.  ([LightItem] is assumed to take
    its [uniqueid] from the reported one.) *)
Theorem snapshot_absent_lights_untouched k now err data s :
  (forall i, uniqueid (li_new i) = raw_uniqueid i) ->
  (forall info, In info data -> raw_uniqueid info <> k) ->
  Obj.get k (lights (final (processLights now err data s))) = Obj.get k (lights s).
Proof.
  intros Hnew Habsent.
  apply (processLights_inv
           (fun s0 => Obj.get k (lights s0) = Obj.get k (lights s)));
    [|reflexivity].
  intros info s0 Hin H0. rewrite poll_one_final.
  pose proof (Habsent info Hin) as Hne.
  destruct (Obj.get (raw_uniqueid info) (lights s0));
    cbn [lights set_lights]; rewrite get_set_other; auto.
  rewrite Hnew. auto.
Qed.



Lemma keyed_set k v s :
  keyed_by_uniqueid s -> uniqueid v = k ->
  keyed_by_uniqueid (set_lights (Obj.set k v (lights s)) s).
Proof.
  intros Hs Hv k' l. cbn [lights set_lights].
  destruct (String.eqb k' k) eqn:E.
  - apply String.eqb_eq in E. subst k'. rewrite get_set_same.
    intros H. inversion H. now subst.
  - apply String.eqb_neq in E. rewrite get_set_other by assumption. apply Hs.
Qed.

(** X12.  Along every history every light is stored under its own
    [uniqueid], so that the key a node registers under, the key a
    write names and the id the ['change'] listener looks up are the
    same.  ([updateInfo] and [updateColor] are assumed to leave the
    [uniqueid] of the item alone.) *)
Theorem lights_keyed_by_uniqueid ops cfg :
  (forall now i l, uniqueid (fst (li_updateInfo now i l)) = uniqueid l) ->
  (forall v l, uniqueid (li_updateColor v l) = uniqueid l) ->
  keyed_by_uniqueid (run_ops ops (final (LightServer_new cfg))).
Proof.
  intros Hupd Hcol.
  assert (H0 : keyed_by_uniqueid (final (LightServer_new cfg))).
  { intros k l H. discriminate. }
  revert H0. generalize (final (LightServer_new cfg)).
  induction ops as [|op r IH]; intros s Hs; cbn [run_ops fold_left]; [exact Hs|].
  apply IH. clear IH.
  destruct op; cbn [step].
  - apply (initialFetch_inv keyed_by_uniqueid); auto.
    intros item s0 _ H0. rewrite addLight_final. now apply keyed_set.
  - exact Hs.
  - apply (processLights_inv keyed_by_uniqueid); auto.
    intros info s0 _ H0. rewrite poll_one_final.
    destruct (Obj.get (raw_uniqueid info) (lights s0)) as [light|] eqn:Hl.
    + apply keyed_set; auto. rewrite Hupd. now apply H0.
    + now apply keyed_set.
  - now rewrite (keeps_setLightState_done (fun s0 => s0)).
  - destruct (stop_result s) as [_ [Hf _]]. rewrite Hf.
    intros k l H. discriminate.
  - intros k l. rewrite (keeps_nodeRegister lights); auto.
  - intros k l. rewrite nodeUnregister_run. cbn [final].
    destruct (Obj.get lightID (nodeList s)) as [tbl|]; [|apply Hs].
    destruct (Obj.hasOwn nodeID tbl); apply Hs.
  - intros k l.
    destruct (lightChange_final_lights now lightID value s) as [o [Ho Hcase]].
    rewrite Ho. destruct Hcase as [->|[light [light' [Hl [Hu ->]]]]]; [apply Hs|].
    revert k l. apply keyed_set; [exact Hs|].
    rewrite Hu, Hcol. cbn [uniqueid set_modified]. now apply Hs.
Qed.


End LightsTable.

(** ** The poll timer *)

Section TimerFacts.

Context {T : LightTypes} {O : LightOps}.

Lemma quiet_statusUpdateLight light : emits_only quiet (statusUpdateLight light).
Proof.
  unfold statusUpdateLight, updateNodeStatus, node_status, node_send.
  repeat (emits_step; try reflexivity).
Qed.

Lemma quiet_on_change light : emits_only quiet (on_change light).
Proof.
  unfold on_change, updateNodeStatus, node_status, node_send.
  repeat (emits_step; try reflexivity).
Qed.

Lemma quiet_addLight info : emits_only quiet (addLight info).
Proof.
  unfold addLight.
  repeat (emits_step || apply quiet_statusUpdateLight).
Qed.

Lemma quiet_poll_one now info : emits_only quiet (poll_one now info).
Proof.
  unfold poll_one.
  repeat (emits_step || apply quiet_addLight || apply quiet_on_change).
Qed.

Lemma quiet_processLights now err data : emits_only quiet (processLights now err data).
Proof.
  unfold processLights.
  repeat (emits_step || apply quiet_poll_one).
Qed.

Lemma quiet_lightChange now lightID value : emits_only quiet (lightChange now lightID value).
Proof.
  unfold lightChange.
  repeat (emits_step; try reflexivity).
Qed.

Lemma quiet_nodeRegister lightID nodeID node :
  emits_only quiet (nodeRegister lightID nodeID node).
Proof.
  unfold nodeRegister, updateNodeStatus, node_status, node_send.
  repeat (emits_step; try reflexivity).
Qed.

Lemma quiet_setLightState_done err : emits_only quiet (setLightState_done err).
Proof. unfold setLightState_done. repeat emits_step. Qed.

(** X14.  Apart from [stop] and the answer of the initial fetch,
    nothing arms, clears or replaces the poll timer: not a failed
    periodic fetch, not a pass that is left by an exception, not a
    write or its failure, not a registration. *)
Theorem timer_only_touched_by_stop_and_initial_answer op s :
  is_stop op = false ->
  is_initial_answer op = false ->
  lightPollInterval (final (step op s)) = lightPollInterval s /\
  Forall (fun e => is_timer_call e = false) (trace (step op s)).
Proof.
  intros Hstop Hinit. destruct op; cbn [step]; try discriminate.
  - split; [reflexivity|]. repeat constructor.
  - split; [now apply (keeps_processLights lightPollInterval)|].
    apply quiet_processLights.
  - split; [now apply (keeps_setLightState_done lightPollInterval)|].
    apply quiet_setLightState_done.
  - split; [now apply (keeps_nodeRegister lightPollInterval)|].
    apply quiet_nodeRegister.
  - rewrite nodeUnregister_run. cbn [final trace]. split; [|constructor].
    destruct (Obj.get lightID (nodeList s)) as [tbl|]; [|reflexivity].
    destruct (Obj.hasOwn nodeID tbl); reflexivity.
  - split; [now apply (keeps_lightChange lightPollInterval)|].
    apply quiet_lightChange.
Qed.

(** X15.  The answer of the initial fetch arms the timer exactly when
    the recording of the lights completes normally, and then with the
    interval of the configuration, as its last call; when announcing a
    light to a node throws, the callback is left before [setInterval]:
    the timer handle is as before and no timer call was made. *)
Theorem initial_answer_arms_iff_normal data s :
  let r := initialFetch None data s in
  match outcome r with
  | Js.Normal _ =>
      lightPollInterval (final r) = Some {| delay := interval (config s) |} /\
      exists pre,
        trace r = (pre ++ [SetInterval (interval (config s))])%list /\
        Forall (fun e => is_timer_call e = false) pre
  | Js.Throw _ =>
      lightPollInterval (final r) = lightPollInterval s /\
      Forall (fun e => is_timer_call e = false) (trace r)
  end.
Proof.
  intros r. unfold r, initialFetch.
  set (loop := forEach (fun item => addLight item ;; ret tt) data).
  assert (Hq : emits_only quiet loop).
  { unfold loop. repeat (emits_step || apply quiet_addLight). }
  assert (Ht : keeps lightPollInterval loop).
  { unfold loop. apply keeps_forEach. intros x.
    apply keeps_bind; [now apply keeps_addLight | intros; apply keeps_ret]. }
  assert (Hc : keeps config loop).
  { unfold loop. apply keeps_forEach. intros x.
    apply keeps_bind; [now apply keeps_addLight | intros; apply keeps_ret]. }
  destruct (outcome (loop s)) as [[]|e] eqn:E.
  - rewrite (bind_normal _ _ _ E).
    unfold bind, get_state, tell, modify.
    cbn [outcome final trace lightPollInterval set_lightPollInterval app].
    pose proof (Hc s) as Hcs. cbv beta in Hcs. rewrite !Hcs.
    split; [reflexivity|].
    exists (trace (loop s)). split; [reflexivity | apply Hq].
  - rewrite (bind_throw _ _ _ E). cbn [outcome final trace].
    split; [apply Ht | apply Hq].
Qed.

(** X16.  The callback of the initial fetch does not look at whether
    the server was stopped: on a server stopped before the answer
    arrived, a successful answer still arms the poll timer (and a later
    [stop] is needed to clear it). *)
Theorem stop_before_initial_answer_still_arms cfg data :
  let s0 := final (LightServer_new cfg) in
  let s := run_ops [OpStop; OpInitialAnswer None data] s0 in
  lightPollInterval (final (stop s0)) = None /\
  lightPollInterval s = Some {| delay := interval (config s0) |}.
Proof.
  intros s0 s. split; [reflexivity|].
  unfold s. cbn [run_ops fold_left step].
  set (s1 := final (stop s0)).
  assert (Hn : nodeList s1 = []) by reflexivity.
  destruct (initial_lights_added data s1 Hn) as [Ho _].
  assert (Hc : config (final (forEach (fun item => addLight item ;; ret tt) data s1))
               = config s1).
  { apply (keeps_forEach (f := config)). intros x.
    apply keeps_bind; [apply keeps_addLight; reflexivity | intros; apply keeps_ret]. }
  unfold initialFetch. erewrite bind_normal by exact Ho.
  set (pre := forEach _ data s1) in *.
  unfold bind, get_state, tell, modify.
  cbn [outcome final trace lightPollInterval set_lightPollInterval].
  now rewrite Hc.
Qed.

End TimerFacts.

(** ** Writes *)

Section WriteFrame.

Context {T : LightTypes} {O : LightOps}.


End WriteFrame.

(** ** Listing and shutdown *)

Section Listing.

Context {T : LightTypes} {O : LightOps}.

Lemma getLights_fold s sub (acc : M (list Listing)) a :
  NoDup (Obj.keys (lights s)) ->
  incl sub (lights s) ->
  acc s = {| outcome := Js.Normal a; final := s; trace := [] |} ->
  fold_left
    (fun (coll : M (list Listing)) lightid =>
       c <- coll ;;
       match Obj.get lightid (lights s) with
       | Some light =>
           ret (c ++ [ {| l_id := uniqueid light;
                          l_info := id (info light);
                          l_name := name (info light) |} ])%list
       | None => throw (Js.TypeError "Cannot read properties of undefined")
       end)
    (Obj.keys sub) acc s
  = {| outcome := Js.Normal (a ++ map (fun kv => listing (snd kv)) sub)%list;
       final := s; trace := [] |}.
Proof.
  intros Hnd. revert acc a.
  induction sub as [|[k light] r IH]; intros acc a Hincl Hacc;
    cbn [Obj.keys map fst snd fold_left].
  - now rewrite app_nil_r.
  - fold (Obj.keys r).
    assert (Hget : Obj.get k (lights s) = Some light).
    { apply get_nodup_in; auto. apply Hincl. now left. }
    rewrite IH with (a := (a ++ [listing light])%list).
    + now rewrite <- app_assoc.
    + intros x Hx. apply Hincl. now right.
    + erewrite bind_normal by (rewrite Hacc; reflexivity).
      rewrite Hacc. cbn [outcome final trace]. rewrite Hget. reflexivity.
Qed.

Lemma getLights_run s :
  lights_wf s ->
  getLights s
  = {| outcome := Js.Normal (map (fun kv => listing (snd kv)) (lights s));
       final := s; trace := [] |}.
Proof.
  intros Hwf. unfold getLights.
  match goal with
  | |- bind get_state ?k s = _ =>
      change (bind get_state k s)
        with {| outcome := outcome (k s s); final := final (k s s);
                trace := trace (k s s) |}
  end.
  cbv beta.
  rewrite (@getLights_fold s (lights s) (ret []) [] Hwf (incl_refl _) eq_refl).
  reflexivity.
Qed.

(** X18.  [getLights] returns one element per known light, in the
    order in which [Object.keys] enumerates the table of lights, built
    from the light's [uniqueid], [info.id] and [info.name]; it calls
    nothing and leaves the server as it is. *)
Theorem getLights_lists_every_light s :
  lights_wf s ->
  getLights s
  = {| outcome := Js.Normal (map (fun kv => listing (snd kv)) (lights s));
       final := s; trace := [] |} /\
  (forall l, outcome (getLights s) = Js.Normal l ->
             List.length l = List.length (Obj.keys (lights s))).
Proof.
  intros Hwf. rewrite (getLights_run Hwf). split; [reflexivity|].
  cbn [outcome]. intros l H. inversion H.
  unfold Obj.keys. now rewrite !List.length_map.
Qed.

(** The table of lights has each key once along every history. *)
Lemma step_lights_wf op s : lights_wf s -> lights_wf (final (step op s)).
Proof.
  intros Hwf. destruct op; cbn [step].
  - apply (initialFetch_inv lights_wf); auto.
    intros item s0 _ H0. rewrite addLight_final. now apply nodup_set.
  - exact Hwf.
  - apply (processLights_inv lights_wf); auto.
    intros info s0 _ H0. rewrite poll_one_final.
    destruct (Obj.get (raw_uniqueid info) (lights s0)); now apply nodup_set.
  - now rewrite (keeps_setLightState_done (fun s0 => s0)).
  - destruct (stop_result s) as [_ [Hf _]]. rewrite Hf. constructor.
  - unfold lights_wf. now rewrite (keeps_nodeRegister lights).
  - unfold lights_wf. rewrite nodeUnregister_run. cbn [final].
    destruct (Obj.get lightID (nodeList s)) as [tbl|]; [|exact Hwf].
    destruct (Obj.hasOwn nodeID tbl); exact Hwf.
  - unfold lights_wf.
    destruct (lightChange_final_lights now lightID value s) as [o [Ho Hcase]].
    rewrite Ho. destruct Hcase as [->|[light [light' [_ [_ ->]]]]]; auto.
    now apply nodup_set.
Qed.

Lemma run_ops_lights_wf ops cfg :
  lights_wf (run_ops ops (final (LightServer_new cfg))).
Proof.
  assert (H0 : lights_wf (final (LightServer_new cfg))) by constructor.
  revert H0. generalize (final (LightServer_new cfg)).
  induction ops as [|op r IH]; intros s Hs; cbn [run_ops fold_left].
  - exact Hs.
  - apply IH. now apply step_lights_wf.
Qed.

Lemma stop_loop_trace s0 sub :
  NoDup (Obj.keys (lights s0)) ->
  incl sub (lights s0) ->
  trace (forEach (fun uid =>
                    s1 <- get_state ;;
                    match Obj.get uid (lights s1) with
                    | Some light => tell (LightStop (uniqueid light))
                    | None => throw (Js.TypeError "Cannot read properties of undefined")
                    end) (Obj.keys sub) s0)
  = map (fun kv => LightStop (uniqueid (snd kv))) sub.
Proof.
  intros Hnd. induction sub as [|[k light] r IH]; intros Hincl;
    cbn [Obj.keys map fst snd forEach].
  - reflexivity.
  - fold (Obj.keys r).
    assert (Hget : Obj.get k (lights s0) = Some light).
    { apply get_nodup_in; auto. apply Hincl. now left. }
    match goal with
    | |- trace (bind ?m ?k' s0) = _ =>
        assert (Hm : m s0 = {| outcome := Js.Normal tt; final := s0;
                               trace := [LightStop (uniqueid light)] |})
    end.
    { unfold bind, get_state. cbn [outcome final trace]. rewrite Hget. reflexivity. }
    erewrite bind_normal by (rewrite Hm; reflexivity).
    rewrite Hm. cbn [outcome final trace app].
    f_equal. apply IH. intros x Hx. apply Hincl. now right.
Qed.

(** X19.  [stop] makes these calls and no other: [clearInterval] on the
    handle when a timer is armed, then [stop] on every known light,
    once each, in the order of the table. *)
Theorem stop_stops_every_light s :
  lights_wf s ->
  trace (stop s)
  = (match lightPollInterval s with
     | Some h => [ClearInterval h]
     | None => []
     end ++ map (fun kv => LightStop (uniqueid (snd kv))) (lights s))%list.
Proof.
  intros Hwf. unfold stop.
  rewrite trace_bind_get_state.
  set (timer := match lightPollInterval s with
                | Some h => tell (ClearInterval h)
                | None => ret tt
                end).
  assert (Ht : timer s = {| outcome := Js.Normal tt; final := s;
                            trace := match lightPollInterval s with
                                     | Some h => [ClearInterval h]
                                     | None => []
                                     end |}).
  { unfold timer. destruct (lightPollInterval s); reflexivity. }
  erewrite bind_normal by (rewrite Ht; reflexivity).
  rewrite Ht. cbn [outcome final trace].
  erewrite bind_normal by reflexivity.
  cbn [outcome final trace modify app].
  destruct (stop_loop (Obj.keys (lights s)) (set_lightPollInterval None s))
    as [Ho Hf]; [auto|].
  erewrite bind_normal by exact Ho.
  cbn [outcome final trace modify].
  rewrite app_nil_r. f_equal.
  apply (@stop_loop_trace (set_lightPollInterval None s) (lights s) Hwf).
  apply incl_refl.
Qed.

End Listing.

(** ** The listing over HTTP *)

Section Http.

Context {T : LightTypes} {O : LightOps}.




End Http.

(** ** The further statements at concrete servers *)

Section ConcreteMore.

Import Demo.


Ltac demo_nodup :=
  cbn; repeat (constructor; [cbn; intuition discriminate|]); constructor.








Lemma lights_only_removed_by_stop_witness :
  let op := OpPollAnswer 10 None [raw "D2" 30] in
  is_stop op = false /\
  Obj.hasOwn "D1" (lights (server two_nodes)) = true /\
  Obj.hasOwn "D1" (lights (final (step op (server two_nodes)))) = true.
Proof.
  intros op. split; [reflexivity|]. split; [reflexivity|].
  exact (lights_only_removed_by_stop "D1" op (server two_nodes) eq_refl eq_refl).
Defined.

Lemma snapshot_absent_lights_untouched_witness :
  (forall i, uniqueid (li_new i) = raw_uniqueid i) /\
  Obj.get "D1" (lights (final (processLights 10 None [raw "D2" 30; raw "D3" 5]
                                 (server two_nodes))))
  = Obj.get "D1" (lights (server two_nodes)).
Proof.
  split; [intros; reflexivity|].
  apply (@snapshot_absent_lights_untouched types ops "D1" 10 None
           [raw "D2" 30; raw "D3" 5] (server two_nodes)).
  - intros; reflexivity.
  - intros info [H|[H|[]]]; subst info; cbn; discriminate.
Defined.


Lemma lights_keyed_by_uniqueid_witness :
  keyed_by_uniqueid
    (run_ops [ OpInitialAnswer None [raw "D1" 50];
               OpLightChange 10 "D1" {| duration := Js.Undefined; change := 80%Z |};
               OpPollAnswer 20 None [raw "D1" 60; raw "D2" 30] ]
             (final (LightServer_new (cfg (Js.Number (Js.Fin 1000)))))).
Proof.
  apply lights_keyed_by_uniqueid.
  - intros now i l. unfold li_updateInfo. cbn. unfold updateInfo.
    destruct (suppressed now l || Z.eqb (canon l) (raw_payload i)); reflexivity.
  - intros; reflexivity.
Defined.


Lemma timer_only_touched_by_stop_and_initial_answer_witness :
  let op := OpPollAnswer 10 (Some "ETIMEDOUT") [] in
  is_stop op = false /\
  is_initial_answer op = false /\
  lightPollInterval (final (step op (server two_nodes)))
  = lightPollInterval (server two_nodes) /\
  Forall (fun e => is_timer_call e = false) (trace (step op (server two_nodes))).
Proof.
  intros op. split; [reflexivity|]. split; [reflexivity|].
  exact (timer_only_touched_by_stop_and_initial_answer op (server two_nodes)
           eq_refl eq_refl).
Defined.


Lemma getLights_lists_every_light_witness :
  let s := final (addLight (raw "3" 1) (final (addLight (raw "7" 2) (server [])))) in
  lights_wf s /\
  Obj.keys (lights s) = ["3"; "7"; "D1"] /\
  getLights s
  = {| outcome := Js.Normal [ {| l_id := "3"; l_info := Js.Str "3";
                                 l_name := Js.Str "lamp" |};
                              {| l_id := "7"; l_info := Js.Str "7";
                                 l_name := Js.Str "lamp" |};
                              {| l_id := "D1"; l_info := Js.Str "D1";
                                 l_name := Js.Str "lamp" |} ];
       final := s; trace := [] |}.
Proof.
  intros s.
  assert (Hwf : lights_wf s) by (unfold lights_wf; demo_nodup).
  split; [exact Hwf|]. split; [reflexivity|].
  exact (proj1 (getLights_lists_every_light Hwf)).
Defined.

Lemma stop_stops_every_light_witness :
  lights_wf (server two_nodes) /\
  trace (stop (server two_nodes))
  = [ClearInterval {| delay := Js.Number (Js.Fin 500) |}; LightStop "D1"].
Proof.
  assert (Hwf : lights_wf (server two_nodes)) by (unfold lights_wf; demo_nodup).
  split; [exact Hwf|].
  exact (stop_stops_every_light Hwf).
Defined.




End ConcreteMore.
